(** * les/txrelay.go: the light-client transaction relay

    A shallow embedding of [LesTxRelay] (package [les]) and the properties of
    its bookkeeping: the Relay Table [txSent], the Pending Set [txPending] and
    the cached live-peer list [peerList].

    Finite maps and sets are stdpp's [gmap] and [gset]: Go's
    [map[common.Hash][]*ltrInfo] is a [gmap], [map[common.Hash]struct{}] and
    [map[*peer]struct{}] are [gset]s. *)

From stdpp Require Import gmap list fin_maps fin_sets.

(** ** Package [common]: hashes and addresses

    [common.Hash] is a [[32]byte] and [common.Address] a [[20]byte]; both are
    only ever compared and used as map keys here, so each is the integer its
    bytes spell. *)
Module common.
Definition Hash := Z.
Definition Address := Z.
End common.

(** ** Package [types]: transactions

    The relay reads two things off a transaction: [tx.Hash()] and
    [tx.GasFeeRecipient()], a pointer that [send] dereferences without a nil
    check.  A transaction is the record of these two observations, the
    recipient being the address pointed to; the copy [newTx] that [send] makes
    of the transaction takes both, so a copy has the hash of its original. *)
Module types.
Record Transaction := mkTransaction {
  Hash : common.Hash;
  GasFeeRecipient : common.Address;
}.
Definition Transactions := list Transaction.

#[global] Instance Transaction_eq_dec : EqDecision Transaction.
Proof. solve_decision. Defined.
End types.

(** ** The collaborators of the relay *)

(** A [*peer] is known by its identity only. *)
Definition peer := N.

(** The peer set [ps] is owned by the protocol manager and changes between
    calls of the relay; every operation below takes the peer set as it is at
    the time of the call.  The relay uses two of its methods: [AllPeers], the
    live peers, and [getPeerWithEtherbase], that answers a peer or an error
    ([None]); within one call the same address gets the same answer.  Nothing
    relates the two: the cached list may be stale with respect to the
    lookups. *)
Record peerSet := mkPeerSet {
  AllPeers : list peer;
  getPeerWithEtherbase : common.Address → option peer;
}.

(** The request [rq] handed to [reqDist.queue].  Its three closures capture
    [pp] and [ll] (and a fresh request id, which no property here reads):
    [canSend] accepts the peer [pp] and no other, [getCost] and [request]
    price and send the batch [ll]. *)
Record distReq := mkDistReq {
  pp : peer;
  ll : types.Transactions;
}.

Definition canSend (rq : distReq) (dp : peer) : bool := bool_decide (dp = pp rq).

(** ** The relay state *)

Definition numRelayPeers : nat := 3.

Record ltrInfo := mkLtrInfo {
  tx : types.Transaction;
  sentTo : gset peer;
}.

Record LesTxRelay := mkLesTxRelay {
  txSent : gmap common.Hash (list ltrInfo);
  txPending : gset common.Hash;
  peerList : list peer;
}.

(** [NewLesTxRelay]: two empty maps; [peerList] is left nil. *)
Definition NewLesTxRelay : LesTxRelay :=
  {| txSent := ∅; txPending := ∅; peerList := [] |}.

(** [registerPeer] and [unregisterPeer] both refresh the cached list. *)
Definition registerPeer (ps : peerSet) (self : LesTxRelay) (p : peer) : LesTxRelay :=
  {| txSent := txSent self; txPending := txPending self; peerList := AllPeers ps |}.

Definition unregisterPeer (ps : peerSet) (self : LesTxRelay) (p : peer) : LesTxRelay :=
  {| txSent := txSent self; txPending := txPending self; peerList := AllPeers ps |}.

(** ** [send] *)

(** The bound of the inner loop,
    [int(math.Min(numRelayPeers, float64(len(self.peerList))))]; a slice
    length is converted to [float64] and back without loss. *)
Definition relayWidth (self : LesTxRelay) : nat :=
  Nat.min numRelayPeers (length (peerList self)).

(** [sendTo[p] = append(sendTo[p], &newTx)]; a missing key reads as nil. *)
Definition appendTo (sendTo : gmap peer types.Transactions) (p : peer)
    (newTx : types.Transaction) : gmap peer types.Transactions :=
  <[p := default [] (sendTo !! p) ++ [newTx]]> sendTo.

(** The inner loop of [send] (lines 88-107), [n] iterations left.  Each
    iteration copies [tx] to [newTx], looks the peer of its gas fee recipient
    up and, on an error, [continue]s. *)
Fixpoint relayLoop (ps : peerSet) (tx : types.Transaction) (n : nat)
    (sendTo : gmap peer types.Transactions) (ltrs : list ltrInfo)
    : gmap peer types.Transactions * list ltrInfo :=
  match n with
  | O => (sendTo, ltrs)
  | S n' =>
      let newTx := tx in
      match getPeerWithEtherbase ps (types.GasFeeRecipient newTx) with
      | None => relayLoop ps tx n' sendTo ltrs
      | Some p =>
          relayLoop ps tx n' (appendTo sendTo p newTx)
            (ltrs ++ [{| tx := newTx; sentTo := ∅ |}])
      end
  end.

(** One iteration of the outer loop (lines 82-112). *)
Definition sendTx (ps : peerSet)
    (acc : LesTxRelay * gmap peer types.Transactions) (tx : types.Transaction)
    : LesTxRelay * gmap peer types.Transactions :=
  let '(self, sendTo) := acc in
  let hash := types.Hash tx in
  match txSent self !! hash with
  | Some _ => (self, sendTo)
  | None =>
      let '(sendTo', ltrs) := relayLoop ps tx (relayWidth self) sendTo [] in
      ({| txSent := <[hash := ltrs]> (txSent self);
          txPending := {[hash]} ∪ txPending self;
          peerList := peerList self |}, sendTo')
  end.

(** Lines 80-112: the state after the outer loop, and the map [sendTo]. *)
Definition fanOut (ps : peerSet) (self : LesTxRelay) (txs : types.Transactions)
    : LesTxRelay * gmap peer types.Transactions :=
  foldl (sendTx ps) (self, ∅) txs.

(** Lines 114-135: one request per entry of [sendTo].  Go ranges over a map
    in an unspecified order; the list is in the order of [map_to_list], and
    the statements about it read it through membership and length only. *)
Definition requests (sendTo : gmap peer types.Transactions) : list distReq :=
  (λ pl, {| pp := pl.1; ll := pl.2 |}) <$> map_to_list sendTo.

(** [send]: the new state and the requests queued at the distributor. *)
Definition send (ps : peerSet) (self : LesTxRelay) (txs : types.Transactions)
    : LesTxRelay * list distReq :=
  let '(self', sendTo) := fanOut ps self txs in (self', requests sendTo).

(** [Send] is [send] under the lock. *)
Definition Send (ps : peerSet) (self : LesTxRelay) (txs : types.Transactions)
    : LesTxRelay * list distReq :=
  send ps self txs.

(** ** [NewHead] *)

(** Lines 149-155: the mined hashes leave the pending set, then the rolled
    back ones enter it. *)
Definition updatePending (pending : gset common.Hash)
    (mined rollback : list common.Hash) : gset common.Hash :=
  foldl (λ s hash, {[hash]} ∪ s) (foldl (λ s hash, s ∖ {[hash]}) pending mined) rollback.

(** Lines 158-163: the copies recorded for the pending hashes, [order] being
    the order in which the range over [txPending] yields them.  A pending hash
    without a record reads a nil slice. *)
Definition pendingCopies (sent : gmap common.Hash (list ltrInfo))
    (order : list common.Hash) : types.Transactions :=
  order ≫= (λ hash, tx <$> default [] (sent !! hash)).

Definition NewHead (ps : peerSet) (self : LesTxRelay) (head : common.Hash)
    (mined rollback : list common.Hash) (order : list common.Hash)
    : LesTxRelay * list distReq :=
  let self1 := {| txSent := txSent self;
                  txPending := updatePending (txPending self) mined rollback;
                  peerList := peerList self |} in
  if decide (0 < size (txPending self1)) then
    send ps self1 (pendingCopies (txSent self1) order)
  else (self1, []).

(** The orders a range over the pending set may take: Go leaves the order
    unspecified, every hash comes once. *)
Definition rangeOrder (pending : gset common.Hash) (order : list common.Hash) : Prop :=
  order ≡ₚ elements pending.

(** ** [Discard] *)

Definition Discard (self : LesTxRelay) (hashes : list common.Hash) : LesTxRelay :=
  foldl (λ s hash, {| txSent := delete hash (txSent s);
                      txPending := txPending s ∖ {[hash]};
                      peerList := peerList s |}) self hashes.

(** ** Calls and reachable states *)

Inductive call :=
| CallRegisterPeer (p : peer)
| CallUnregisterPeer (p : peer)
| CallSend (txs : types.Transactions)
| CallNewHead (head : common.Hash) (mined rollback : list common.Hash)
| CallDiscard (hashes : list common.Hash).

(** [step ps self c self' out]: the call [c], made when the peer set is [ps],
    takes the relay from [self] to [self'] and queues the requests [out]. *)
Inductive step (ps : peerSet) (self : LesTxRelay) : call → LesTxRelay → list distReq → Prop :=
| step_registerPeer p :
    step ps self (CallRegisterPeer p) (registerPeer ps self p) []
| step_unregisterPeer p :
    step ps self (CallUnregisterPeer p) (unregisterPeer ps self p) []
| step_Send txs :
    step ps self (CallSend txs) (Send ps self txs).1 (Send ps self txs).2
| step_NewHead head mined rollback order :
    rangeOrder (updatePending (txPending self) mined rollback) order →
    step ps self (CallNewHead head mined rollback)
      (NewHead ps self head mined rollback order).1
      (NewHead ps self head mined rollback order).2
| step_Discard hashes :
    step ps self (CallDiscard hashes) (Discard self hashes) [].

Inductive reachable : LesTxRelay → Prop :=
| reachable_new : reachable NewLesTxRelay
| reachable_step ps self c self' out :
    reachable self → step ps self c self' out → reachable self'.

(** ** Concrete data used by the examples *)

Definition hash7 : common.Hash := 7%Z.
Definition hash8 : common.Hash := 8%Z.

(** A transaction of hash 7 whose gas fee recipient is the address 10. *)
Definition tx7 : types.Transaction := types.mkTransaction hash7 10%Z.

(** Two live peers; peer 1 has etherbase 10, peer 2 has etherbase 20. *)
Definition ps2 : peerSet :=
  {| AllPeers := [1%N; 2%N];
     getPeerWithEtherbase := λ a, if decide (a = 10%Z) then Some 1%N
                                  else if decide (a = 20%Z) then Some 2%N else None |}.

(** One live peer, with etherbase 20: nobody answers for etherbase 10. *)
Definition ps1 : peerSet :=
  {| AllPeers := [2%N];
     getPeerWithEtherbase := λ a, if decide (a = 20%Z) then Some 2%N else None |}.

Definition relay2 : LesTxRelay := registerPeer ps2 NewLesTxRelay 1%N.
Definition relay1 : LesTxRelay := registerPeer ps1 NewLesTxRelay 2%N.

(** The relay after [Send([tx7])] with the peers of [ps2]. *)
Definition sent2 : LesTxRelay := (Send ps2 relay2 [tx7]).1.

(** The relay after [Send([tx7])] with the peer of [ps1]. *)
Definition sent1 : LesTxRelay := (Send ps1 relay1 [tx7]).1.

(** ** Vocabulary of the statements *)

(** A batch of [sendTo] carries a transaction. *)
Definition inBatch (sendTo : gmap peer types.Transactions) (p : peer)
    (t : types.Transaction) : Prop :=
  ∃ l, sendTo !! p = Some l ∧ t ∈ l.

(** Every copy of a record hashes to the key of the record. *)
Definition keyed (sent : gmap common.Hash (list ltrInfo)) : Prop :=
  ∀ hash r l, sent !! hash = Some r → l ∈ r → types.Hash (tx l) = hash.

(** No copy of a record was delivered to anybody. *)
Definition undelivered (sent : gmap common.Hash (list ltrInfo)) : Prop :=
  ∀ hash r l, sent !! hash = Some r → l ∈ r → sentTo l = ∅.

(** The state [NewHead] hands to [send]. *)
Definition headUpdated (self : LesTxRelay) (mined rollback : list common.Hash)
    : LesTxRelay :=
  {| txSent := txSent self;
     txPending := updatePending (txPending self) mined rollback;
     peerList := peerList self |}.

(** The peers that the requests [reqs] target with a transaction of hash
    [hash]. *)
Definition targets (hash : common.Hash) (reqs : list distReq) : gset peer :=
  list_to_set (pp <$> filter (λ rq, Exists (λ t, types.Hash t = hash) (ll rq)) reqs).

(** Every record is a run of at most [numRelayPeers] identical entries: the
    same transaction, of the hash that keys the record, never delivered. *)
Definition uniform (sent : gmap common.Hash (list ltrInfo)) : Prop :=
  ∀ hash r, sent !! hash = Some r →
    ∃ t k, k ≤ numRelayPeers ∧ types.Hash t = hash ∧
           r = replicate k {| tx := t; sentTo := ∅ |}.

(** ** [HasPeerWithEtherbase]

    The probe returns the error of the lookup and drops the peer; [None] is
    the nil error. *)
Definition HasPeerWithEtherbase (ps : peerSet) (etherbase : common.Address)
    : option unit :=
  match getPeerWithEtherbase ps etherbase with
  | Some _ => None
  | None => Some ()
  end.

(** The batches are routed: none is empty, and each holds transactions whose
    gas fee recipient belongs to the peer of the batch. *)
Definition routed (ps : peerSet) (sendTo : gmap peer types.Transactions) : Prop :=
  ∀ p l, sendTo !! p = Some l →
    l ≠ [] ∧ ∀ t, t ∈ l → getPeerWithEtherbase ps (types.GasFeeRecipient t) = Some p.

(** The batch that the requests [reqs] hold for the peer [p]: the batch of
    the first request for [p], nil when no request is for [p]. *)
Definition batchFor (p : peer) (reqs : list distReq) : types.Transactions :=
  default [] ((list_to_map ((λ rq, (pp rq, ll rq)) <$> reqs)
                 : gmap peer types.Transactions) !! p).

(** * Properties *)

(** ** The inner loop *)

Lemma inBatch_empty p t : ¬ inBatch ∅ p t.
Proof. intros (l & Hl & _). by rewrite lookup_empty in Hl. Qed.

Lemma inBatch_appendTo sendTo q newTx p t :
  inBatch (appendTo sendTo q newTx) p t →
  inBatch sendTo p t ∨ (t = newTx ∧ p = q).
Proof.
  unfold inBatch, appendTo. intros (l & Hl & Ht).
  destruct (decide (q = p)) as [->|Hne].
  - rewrite lookup_insert_eq in Hl. injection Hl as <-.
    apply elem_of_app in Ht as [Ht|Ht].
    + left. destruct (sendTo !! p) as [l0|] eqn:E; simpl in Ht.
      * by exists l0.
      * by apply elem_of_nil in Ht.
    + right. by apply list_elem_of_singleton in Ht.
  - rewrite lookup_insert_ne in Hl by done. left. by exists l.
Qed.

Lemma relayLoop_miss ps t n sendTo ltrs :
  getPeerWithEtherbase ps (types.GasFeeRecipient t) = None →
  relayLoop ps t n sendTo ltrs = (sendTo, ltrs).
Proof.
  intros Hmiss. induction n as [|n IH]; simpl; [done|]. by rewrite Hmiss.
Qed.

(** Every entry the loop appends holds the transaction itself and an empty
    [sentTo]. *)
Lemma relayLoop_ltrs ps t n : ∀ sendTo ltrs l,
  l ∈ (relayLoop ps t n sendTo ltrs).2 →
  l ∈ ltrs ∨ l = {| tx := t; sentTo := ∅ |}.
Proof.
  induction n as [|n IH]; intros sendTo ltrs l; simpl; [by left|].
  destruct (getPeerWithEtherbase ps (types.GasFeeRecipient t)) as [p|].
  - intros H. apply IH in H as [H| ->]; [|by right].
    apply elem_of_app in H as [H|H]; [by left|].
    right. by apply list_elem_of_singleton in H.
  - apply IH.
Qed.

(** What the loop adds to [sendTo] are copies of the transaction, for the
    peers of a set of at most [n] peers. *)
Lemma relayLoop_batches ps t n : ∀ sendTo ltrs,
  ∃ T : gset peer, size T ≤ n ∧
    ∀ p x, inBatch (relayLoop ps t n sendTo ltrs).1 p x →
           inBatch sendTo p x ∨ (x = t ∧ p ∈ T).
Proof.
  induction n as [|n IH]; intros sendTo ltrs; simpl.
  - exists ∅. split; [by rewrite size_empty|]. by left.
  - destruct (getPeerWithEtherbase ps (types.GasFeeRecipient t)) as [q|].
    + destruct (IH (appendTo sendTo q t) (ltrs ++ [{| tx := t; sentTo := ∅ |}]))
        as (T & HT & Hin).
      exists ({[q]} ∪ T). split.
      * rewrite size_union_alt, size_singleton.
        assert (size (T ∖ {[q]}) ≤ size T) as Hle
          by (apply subseteq_size, subseteq_difference_l; reflexivity).
        lia.
      * intros p x H. apply Hin in H as [H|[-> Hp]].
        -- apply inBatch_appendTo in H as [H|[-> ->]]; [by left|].
           right. split; [done|set_solver].
        -- right. split; [done|set_solver].
    + destruct (IH sendTo ltrs) as (T & HT & Hin).
      exists T. split; [lia|done].
Qed.

(** ** One transaction of the outer loop *)

#[local] Arguments sendTx : simpl never.

Lemma sendTx_known ps self sendTo t r :
  txSent self !! types.Hash t = Some r →
  sendTx ps (self, sendTo) t = (self, sendTo).
Proof. intros H. unfold sendTx. by rewrite H. Qed.

Lemma sendTx_new ps self sendTo t :
  txSent self !! types.Hash t = None →
  sendTx ps (self, sendTo) t =
    ({| txSent := <[types.Hash t := (relayLoop ps t (relayWidth self) sendTo []).2]> (txSent self);
        txPending := {[types.Hash t]} ∪ txPending self;
        peerList := peerList self |},
     (relayLoop ps t (relayWidth self) sendTo []).1).
Proof.
  intros H. unfold sendTx. rewrite H.
  by destruct (relayLoop ps t (relayWidth self) sendTo []).
Qed.

(** A property kept by every iteration holds after the loop. *)
Lemma foldl_sendTx_ind ps (P : LesTxRelay * gmap peer types.Transactions → Prop) txs :
  (∀ acc t, t ∈ txs → P acc → P (sendTx ps acc t)) →
  ∀ acc, P acc → P (foldl (sendTx ps) acc txs).
Proof.
  induction txs as [|t txs IH]; intros Hstep acc Hacc; simpl; [done|].
  apply IH.
  - intros acc' t' Ht'. apply Hstep. by right.
  - apply Hstep; [by left|done].
Qed.

Lemma sendTx_peerList ps acc t : peerList (sendTx ps acc t).1 = peerList acc.1.
Proof.
  destruct acc as [self sendTo]. simpl.
  destruct (txSent self !! types.Hash t) as [r|] eqn:E.
  - by erewrite sendTx_known.
  - by rewrite sendTx_new.
Qed.

(** A record, once stored, is never overwritten. *)
Lemma sendTx_txSent ps acc t hash r :
  txSent acc.1 !! hash = Some r → txSent (sendTx ps acc t).1 !! hash = Some r.
Proof.
  destruct acc as [self sendTo]. simpl. intros H.
  destruct (txSent self !! types.Hash t) as [r'|] eqn:E.
  - by erewrite sendTx_known.
  - rewrite sendTx_new by done. simpl.
    rewrite lookup_insert_ne; [done|]. congruence.
Qed.

Lemma sendTx_txPending ps acc t hash :
  hash ∈ txPending acc.1 → hash ∈ txPending (sendTx ps acc t).1.
Proof.
  destruct acc as [self sendTo]. simpl. intros H.
  destruct (txSent self !! types.Hash t) as [r'|] eqn:E.
  - by erewrite sendTx_known.
  - rewrite sendTx_new by done. simpl. set_solver.
Qed.

(** A hash with a record stays as it is in the pending set. *)
Lemma sendTx_txPending_known ps acc t hash :
  is_Some (txSent acc.1 !! hash) →
  hash ∈ txPending (sendTx ps acc t).1 → hash ∈ txPending acc.1.
Proof.
  destruct acc as [self sendTo]. simpl. intros [r Hr].
  destruct (txSent self !! types.Hash t) as [r'|] eqn:E.
  - by erewrite sendTx_known.
  - rewrite sendTx_new by done. simpl.
    intros [H|H]%elem_of_union; [|done].
    apply elem_of_singleton in H as ->. congruence.
Qed.

(** Every transaction of the input gets a record. *)
Lemma sendTx_recorded ps acc t : is_Some (txSent (sendTx ps acc t).1 !! types.Hash t).
Proof.
  destruct acc as [self sendTo].
  destruct (txSent self !! types.Hash t) as [r'|] eqn:E.
  - erewrite sendTx_known by done. simpl. by rewrite E.
  - rewrite sendTx_new by done. simpl. rewrite lookup_insert_eq. by eexists.
Qed.

(** What an iteration adds to the batches are copies of its transaction, and
    only when the transaction was new. *)
Lemma sendTx_batches ps acc t p x :
  inBatch (sendTx ps acc t).2 p x →
  inBatch acc.2 p x ∨ (x = t ∧ txSent acc.1 !! types.Hash t = None).
Proof.
  destruct acc as [self sendTo]. simpl.
  destruct (txSent self !! types.Hash t) as [r'|] eqn:E.
  - erewrite sendTx_known by done. by left.
  - rewrite sendTx_new by done. simpl.
    destruct (relayLoop_batches ps t (relayWidth self) sendTo []) as (T & _ & HT).
    intros H. apply HT in H as [H|[-> _]]; [by left|by right].
Qed.

(** ** The outer loop *)

Lemma foldl_sendTx_peerList ps txs acc :
  peerList (foldl (sendTx ps) acc txs).1 = peerList acc.1.
Proof.
  revert acc. induction txs as [|t txs IH]; intros acc; simpl; [done|].
  by rewrite IH, sendTx_peerList.
Qed.

Lemma foldl_sendTx_txSent ps txs acc hash r :
  txSent acc.1 !! hash = Some r →
  txSent (foldl (sendTx ps) acc txs).1 !! hash = Some r.
Proof.
  intros H. revert acc H.
  apply (foldl_sendTx_ind ps (λ acc, txSent acc.1 !! hash = Some r)).
  intros acc t _. apply sendTx_txSent.
Qed.

Lemma foldl_sendTx_txPending ps txs acc hash :
  hash ∈ txPending acc.1 → hash ∈ txPending (foldl (sendTx ps) acc txs).1.
Proof.
  intros H. revert acc H.
  apply (foldl_sendTx_ind ps (λ acc, hash ∈ txPending acc.1)).
  intros acc t _. apply sendTx_txPending.
Qed.

Lemma foldl_sendTx_txPending_known ps txs : ∀ acc hash,
  is_Some (txSent acc.1 !! hash) →
  hash ∈ txPending (foldl (sendTx ps) acc txs).1 → hash ∈ txPending acc.1.
Proof.
  induction txs as [|t txs IH]; intros acc hash Hr; simpl; [done|].
  intros H. apply (sendTx_txPending_known ps acc t); [done|].
  apply IH; [|done]. destruct Hr as [r Hr]. exists r. by apply sendTx_txSent.
Qed.

Lemma foldl_sendTx_recorded ps txs : ∀ acc t,
  t ∈ txs → is_Some (txSent (foldl (sendTx ps) acc txs).1 !! types.Hash t).
Proof.
  induction txs as [|t' txs IH]; intros acc t Ht; simpl.
  - by apply elem_of_nil in Ht.
  - apply elem_of_cons in Ht as [->|Ht]; [|by apply IH].
    destruct (sendTx_recorded ps acc t') as [r Hr].
    exists r. by apply foldl_sendTx_txSent.
Qed.

(** The loop skips the transactions whose hash has a record: when all have
    one, nothing changes and [sendTo] stays as it was. *)
Lemma foldl_sendTx_all_known ps txs : ∀ acc,
  (∀ t, t ∈ txs → is_Some (txSent acc.1 !! types.Hash t)) →
  foldl (sendTx ps) acc txs = acc.
Proof.
  induction txs as [|t txs IH]; intros [self sendTo] Hall; simpl; [done|].
  destruct (Hall t) as [r Hr]; [by left|]. simpl in Hr.
  erewrite sendTx_known by done.
  apply IH. intros t' Ht'. apply Hall. by right.
Qed.

(** With a record for [hash], the loop runs as if the transactions of that
    hash were not in the input. *)
Lemma foldl_sendTx_filter ps hash txs : ∀ acc,
  is_Some (txSent acc.1 !! hash) →
  foldl (sendTx ps) acc txs =
  foldl (sendTx ps) acc (filter (λ t, types.Hash t ≠ hash) txs).
Proof.
  induction txs as [|t txs IH]; intros [self sendTo] Hr; simpl; [done|].
  destruct (decide (types.Hash t = hash)) as [Heq|Hne].
  - rewrite filter_cons_False by (intros H; by apply H).
    destruct Hr as [r Hr]. simpl in Hr. rewrite <- Heq in Hr.
    erewrite sendTx_known by done.
    apply IH. exists r. simpl. by rewrite Heq in Hr.
  - rewrite filter_cons_True by done. simpl.
    apply IH. destruct Hr as [r Hr]. exists r. by apply sendTx_txSent.
Qed.

(** The transactions in the batches come from the batches the loop started
    with or from the input. *)
Lemma foldl_sendTx_batches ps txs : ∀ acc p x,
  inBatch (foldl (sendTx ps) acc txs).2 p x →
  inBatch acc.2 p x ∨ x ∈ txs.
Proof.
  induction txs as [|t txs IH]; intros acc p x; simpl; [by left|].
  intros H. apply IH in H as [H|H]; [|right; by right].
  apply sendTx_batches in H as [H|[-> _]]; [by left|right; by left].
Qed.

(** ** Two invariants of the relay table *)

Lemma sendTx_keyed ps acc t : keyed (txSent acc.1) → keyed (txSent (sendTx ps acc t).1).
Proof.
  destruct acc as [self sendTo]. simpl. intros Hk.
  destruct (txSent self !! types.Hash t) as [r'|] eqn:E.
  - by erewrite sendTx_known.
  - rewrite sendTx_new by done. simpl. intros hash r l Hr Hl.
    destruct (decide (types.Hash t = hash)) as [<-|Hne].
    + rewrite lookup_insert_eq in Hr. injection Hr as <-.
      apply relayLoop_ltrs in Hl as [Hl| ->]; [by apply elem_of_nil in Hl|done].
    + rewrite lookup_insert_ne in Hr by done. by eapply Hk.
Qed.

Lemma sendTx_undelivered ps acc t :
  undelivered (txSent acc.1) → undelivered (txSent (sendTx ps acc t).1).
Proof.
  destruct acc as [self sendTo]. simpl. intros Hk.
  destruct (txSent self !! types.Hash t) as [r'|] eqn:E.
  - by erewrite sendTx_known.
  - rewrite sendTx_new by done. simpl. intros hash r l Hr Hl.
    destruct (decide (types.Hash t = hash)) as [<-|Hne].
    + rewrite lookup_insert_eq in Hr. injection Hr as <-.
      apply relayLoop_ltrs in Hl as [Hl| ->]; [by apply elem_of_nil in Hl|done].
    + rewrite lookup_insert_ne in Hr by done. by eapply Hk.
Qed.

Lemma send_state ps self txs : (send ps self txs).1 = (fanOut ps self txs).1.
Proof. unfold send. by destruct (fanOut ps self txs). Qed.

Lemma send_requests ps self txs :
  (send ps self txs).2 = requests (fanOut ps self txs).2.
Proof. unfold send. by destruct (fanOut ps self txs). Qed.

Lemma send_keyed ps self txs :
  keyed (txSent self) → keyed (txSent (send ps self txs).1).
Proof.
  intros H. rewrite send_state. unfold fanOut.
  apply (foldl_sendTx_ind ps (λ acc, keyed (txSent acc.1))); [|done].
  intros acc t _. apply sendTx_keyed.
Qed.

Lemma send_undelivered ps self txs :
  undelivered (txSent self) → undelivered (txSent (send ps self txs).1).
Proof.
  intros H. rewrite send_state. unfold fanOut.
  apply (foldl_sendTx_ind ps (λ acc, undelivered (txSent acc.1))); [|done].
  intros acc t _. apply sendTx_undelivered.
Qed.

(** ** [Discard] *)

Lemma Discard_peerList hashes : ∀ self, peerList (Discard self hashes) = peerList self.
Proof.
  unfold Discard. induction hashes as [|h hashes IH]; intros self; simpl; [done|].
  by rewrite IH.
Qed.

Lemma Discard_txSent hashes : ∀ self hash,
  txSent (Discard self hashes) !! hash =
  if decide (hash ∈ hashes) then None else txSent self !! hash.
Proof.
  unfold Discard. induction hashes as [|h hashes IH]; intros self hash; cbn [foldl].
  - destruct (decide (hash ∈ [])) as [H|_]; [by apply elem_of_nil in H|done].
  - rewrite IH. cbn [txSent].
    destruct (decide (hash ∈ hashes)) as [Hin|Hnin];
      destruct (decide (hash ∈ h :: hashes)) as [Hin'|Hnin']; try done.
    + exfalso. apply Hnin'. by right.
    + apply elem_of_cons in Hin' as [->|?]; [|done]. apply lookup_delete_eq.
    + apply lookup_delete_ne. intros ->. apply Hnin'. by left.
Qed.

Lemma Discard_txPending hashes : ∀ self hash,
  hash ∈ txPending (Discard self hashes) ↔ hash ∈ txPending self ∧ hash ∉ hashes.
Proof.
  unfold Discard. induction hashes as [|h hashes IH]; intros self hash; simpl.
  - split; [|by intros [? _]]. intros H. split; [done|apply not_elem_of_nil].
  - rewrite IH. simpl. rewrite elem_of_difference, elem_of_singleton, not_elem_of_cons.
    tauto.
Qed.

(** ** [NewHead] *)

Lemma updatePending_spec mined rollback pending hash :
  hash ∈ updatePending pending mined rollback ↔
  hash ∈ rollback ∨ (hash ∈ pending ∧ hash ∉ mined).
Proof.
  unfold updatePending.
  assert (Hm : ∀ l (s : gset common.Hash),
             hash ∈ foldl (λ s h, s ∖ {[h]}) s l ↔ hash ∈ s ∧ hash ∉ l).
  { induction l as [|h l IH]; intros s; simpl.
    - split; [|by intros [? _]]. intros H. split; [done|apply not_elem_of_nil].
    - rewrite IH, elem_of_difference, elem_of_singleton, not_elem_of_cons. tauto. }
  assert (Hr : ∀ l (s : gset common.Hash),
             hash ∈ foldl (λ s h, {[h]} ∪ s) s l ↔ hash ∈ l ∨ hash ∈ s).
  { induction l as [|h l IH]; intros s; simpl.
    - split; [by right|]. intros [H|H]; [by apply elem_of_nil in H|done].
    - rewrite IH, elem_of_union, elem_of_singleton, elem_of_cons. tauto. }
  by rewrite Hr, Hm.
Qed.

Lemma requests_empty : requests ∅ = [].
Proof. unfold requests. by rewrite map_to_list_empty. Qed.

(** In a keyed table every copy collected by [NewHead] has a record. *)
Lemma pendingCopies_known sent order t :
  keyed sent → t ∈ pendingCopies sent order → is_Some (sent !! types.Hash t).
Proof.
  intros Hk. unfold pendingCopies. intros H.
  apply list_elem_of_bind in H as (hash & Ht & _).
  destruct (sent !! hash) as [r|] eqn:E; simpl in Ht.
  - apply list_elem_of_fmap in Ht as (l & -> & Hl).
    rewrite (Hk hash r l E Hl). by rewrite E.
  - by apply elem_of_nil in Ht.
Qed.

(** On a keyed table the replay of [NewHead] is skipped transaction by
    transaction: the pending set is updated and no request is queued. *)
Lemma NewHead_keyed ps self head mined rollback order :
  keyed (txSent self) →
  NewHead ps self head mined rollback order = (headUpdated self mined rollback, []).
Proof.
  intros Hk. unfold NewHead. cbn [txSent txPending]. case_decide; [|done].
  unfold send, fanOut. rewrite foldl_sendTx_all_known.
  - by rewrite requests_empty.
  - intros t Ht. cbn [fst txSent]. by eapply pendingCopies_known.
Qed.

Lemma NewHead_txSent ps self head mined rollback order hash r :
  txSent self !! hash = Some r →
  txSent (NewHead ps self head mined rollback order).1 !! hash = Some r.
Proof.
  intros H. unfold NewHead. case_decide; [|done].
  rewrite send_state. unfold fanOut. by apply foldl_sendTx_txSent.
Qed.

Lemma NewHead_txPending ps self head mined rollback order hash :
  hash ∈ updatePending (txPending self) mined rollback →
  hash ∈ txPending (NewHead ps self head mined rollback order).1.
Proof.
  intros H. unfold NewHead. case_decide; [|done].
  rewrite send_state. unfold fanOut. by apply foldl_sendTx_txPending.
Qed.

(** ** The reachable states keep both invariants *)

Lemma step_keyed ps self c self' out :
  step ps self c self' out → keyed (txSent self) → keyed (txSent self').
Proof.
  intros [p|p|txs|head mined rollback order _|hashes] Hk; try done.
  - by apply send_keyed.
  - by rewrite NewHead_keyed.
  - intros hash r l Hr Hl. rewrite Discard_txSent in Hr.
    case_decide; [done|]. by eapply Hk.
Qed.

Lemma step_undelivered ps self c self' out :
  step ps self c self' out →
  keyed (txSent self) → undelivered (txSent self) → undelivered (txSent self').
Proof.
  intros [p|p|txs|head mined rollback order _|hashes] Hk Hu; try done.
  - by apply send_undelivered.
  - by rewrite NewHead_keyed.
  - intros hash r l Hr Hl. rewrite Discard_txSent in Hr.
    case_decide; [done|]. by eapply Hu.
Qed.

Lemma keyed_empty : keyed ∅.
Proof. intros hash r l Hr. by rewrite lookup_empty in Hr. Qed.

Lemma undelivered_empty : undelivered ∅.
Proof. intros hash r l Hr. by rewrite lookup_empty in Hr. Qed.

Lemma reachable_keyed self : reachable self → keyed (txSent self).
Proof.
  induction 1 as [|ps self c self' out _ IH Hstep].
  - apply keyed_empty.
  - by eapply step_keyed.
Qed.

Lemma reachable_undelivered self : reachable self → undelivered (txSent self).
Proof.
  induction 1 as [|ps self c self' out Hreach IH Hstep].
  - apply undelivered_empty.
  - eapply step_undelivered; [done| |done]. by apply reachable_keyed.
Qed.

(** ** The requests of [send] *)

Lemma elem_of_requests sendTo rq :
  rq ∈ requests sendTo ↔ sendTo !! pp rq = Some (ll rq).
Proof.
  unfold requests. rewrite list_elem_of_fmap. split.
  - intros ([p l] & -> & H). by apply elem_of_map_to_list in H.
  - intros H. exists (pp rq, ll rq). split; [by destruct rq|].
    by apply elem_of_map_to_list.
Qed.

Lemma request_inBatch sendTo rq t :
  rq ∈ requests sendTo → t ∈ ll rq → inBatch sendTo (pp rq) t.
Proof. intros H Ht. apply elem_of_requests in H. by exists (ll rq). Qed.

Lemma sendTx_txSent_other ps acc t hash :
  types.Hash t ≠ hash → txSent (sendTx ps acc t).1 !! hash = txSent acc.1 !! hash.
Proof.
  destruct acc as [self sendTo]. simpl. intros Hne.
  destruct (txSent self !! types.Hash t) as [r'|] eqn:E.
  - by erewrite sendTx_known.
  - rewrite sendTx_new by done. simpl. by rewrite lookup_insert_ne.
Qed.

(** A hash that has a record is skipped by [send]: its record and its
    membership in the pending set stay, and no request carries a transaction
    of that hash. *)
Lemma send_skips_known ps self txs hash r :
  txSent self !! hash = Some r →
  txSent (send ps self txs).1 !! hash = Some r ∧
  (hash ∈ txPending (send ps self txs).1 ↔ hash ∈ txPending self) ∧
  ∀ rq t, rq ∈ (send ps self txs).2 → t ∈ ll rq → types.Hash t ≠ hash.
Proof.
  intros Hr. rewrite send_state, send_requests. unfold fanOut. split; [|split].
  - by apply foldl_sendTx_txSent.
  - split.
    + apply (foldl_sendTx_txPending_known ps txs (self, ∅) hash). by exists r.
    + apply (foldl_sendTx_txPending ps txs (self, ∅) hash).
  - intros rq t Hrq Ht Heq.
    pose proof (request_inBatch _ _ _ Hrq Ht) as Hin.
    rewrite (foldl_sendTx_filter ps hash) in Hin by (by exists r).
    apply foldl_sendTx_batches in Hin as [Hin|Hin].
    + by apply inBatch_empty in Hin.
    + apply list_elem_of_filter in Hin as [Hne _]. by apply Hne.
Qed.

Lemma elem_of_targets hash sendTo p :
  p ∈ targets hash (requests sendTo) ↔
  ∃ t, inBatch sendTo p t ∧ types.Hash t = hash.
Proof.
  unfold targets. rewrite elem_of_list_to_set, list_elem_of_fmap. split.
  - intros (rq & -> & H). apply list_elem_of_filter in H as [Hex Hrq].
    apply Exists_exists in Hex as (t & Ht & Hh).
    exists t. split; [|done]. by apply request_inBatch.
  - intros (t & (l & Hl & Ht) & Hh). exists {| pp := p; ll := l |}. split; [done|].
    apply list_elem_of_filter. split.
    + apply Exists_exists. by exists t.
    + by apply elem_of_requests.
Qed.

(** The fan-out of one hash stays within the width of the inner loop. *)
Lemma foldl_sendTx_width ps hash pl txs : ∀ acc,
  peerList acc.1 = pl →
  (txSent acc.1 !! hash = None ∧ ∀ p x, inBatch acc.2 p x → types.Hash x ≠ hash) ∨
  (is_Some (txSent acc.1 !! hash) ∧
   ∃ T : gset peer, size T ≤ Nat.min numRelayPeers (length pl) ∧
     ∀ p x, inBatch acc.2 p x → types.Hash x = hash → p ∈ T) →
  ∃ T : gset peer, size T ≤ Nat.min numRelayPeers (length pl) ∧
    ∀ p x, inBatch (foldl (sendTx ps) acc txs).2 p x → types.Hash x = hash → p ∈ T.
Proof.
  induction txs as [|t txs IH]; intros [self sendTo] Hpl Hinv; simpl in *.
  - destruct Hinv as [[_ Hno]|[_ HT]]; [|done].
    exists ∅. split; [rewrite size_empty; lia|]. intros p x Hin Hx. by destruct (Hno p x).
  - apply IH; [by rewrite sendTx_peerList|].
    destruct (txSent self !! types.Hash t) as [r'|] eqn:E.
    { erewrite sendTx_known by done. done. }
    rewrite sendTx_new by done. simpl.
    destruct (relayLoop_batches ps t (relayWidth self) sendTo []) as (T & HT & Hin).
    destruct (decide (types.Hash t = hash)) as [Heq|Hne].
    + right. rewrite Heq, lookup_insert_eq. split; [by eexists|].
      destruct Hinv as [[_ Hno]|[[r Hr] _]]; [|congruence].
      exists T. split; [unfold relayWidth in HT; by rewrite Hpl in HT|].
      intros p x Hb Hx. apply Hin in Hb as [Hb|[_ Hp]]; [|done].
      by destruct (Hno p x).
    + rewrite lookup_insert_ne by done.
      destruct Hinv as [[Hnone Hno]|[Hsome (T' & HT' & Hin')]].
      * left. split; [done|]. intros p x Hb.
        apply Hin in Hb as [Hb|[-> _]]; [by apply Hno in Hb|done].
      * right. split; [done|]. exists T'. split; [done|].
        intros p x Hb Hx. apply Hin in Hb as [Hb|[-> _]]; [by eapply Hin'|done].
Qed.

Lemma send_width ps self txs hash :
  size (targets hash (send ps self txs).2) ≤
  Nat.min numRelayPeers (length (peerList self)).
Proof.
  rewrite send_requests. unfold fanOut.
  destruct (foldl_sendTx_width ps hash (peerList self) txs (self, ∅)) as (T & HT & Hin).
  - done.
  - destruct (txSent self !! hash) as [r|] eqn:E; simpl; rewrite E.
    + right. split; [by eexists|]. exists ∅. split; [rewrite size_empty; lia|].
      intros p x Hb. by apply inBatch_empty in Hb.
    + left. split; [done|]. intros p x Hb. by apply inBatch_empty in Hb.
  - etrans; [|exact HT]. apply subseteq_size. intros p Hp.
    apply elem_of_targets in Hp as (t & Hb & Hh). by eapply Hin.
Qed.

(** With no peer for the gas fee recipients of the transactions of [hash],
    the loop records an empty list for the hash and adds nothing to the
    batches. *)
Lemma foldl_sendTx_miss ps hash txs :
  (∀ t, t ∈ txs → types.Hash t = hash →
        getPeerWithEtherbase ps (types.GasFeeRecipient t) = None) →
  ∀ acc,
  (txSent acc.1 !! hash = None ∨ txSent acc.1 !! hash = Some []) ∧
  (∀ p x, inBatch acc.2 p x → types.Hash x ≠ hash) →
  (txSent (foldl (sendTx ps) acc txs).1 !! hash = None ∨
   txSent (foldl (sendTx ps) acc txs).1 !! hash = Some []) ∧
  (∀ p x, inBatch (foldl (sendTx ps) acc txs).2 p x → types.Hash x ≠ hash).
Proof.
  intros Hmiss.
  apply (foldl_sendTx_ind ps (λ acc,
    (txSent acc.1 !! hash = None ∨ txSent acc.1 !! hash = Some []) ∧
    (∀ p x, inBatch acc.2 p x → types.Hash x ≠ hash))).
  intros [self sendTo] t Ht [Hrec Hno]. simpl in *.
  destruct (txSent self !! types.Hash t) as [r'|] eqn:E.
  { erewrite sendTx_known by done. done. }
  rewrite sendTx_new by done. simpl.
  destruct (decide (types.Hash t = hash)) as [Heq|Hne].
  - rewrite relayLoop_miss by auto. simpl. split; [|done].
    right. by rewrite Heq, lookup_insert_eq.
  - rewrite lookup_insert_ne by done. split; [done|].
    destruct (relayLoop_batches ps t (relayWidth self) sendTo []) as (T & _ & Hin).
    intros p x Hb. apply Hin in Hb as [Hb|[-> _]]; [by eapply Hno|done].
Qed.

(** ** Concrete runs *)

Lemma reachable_relay2 : reachable relay2.
Proof.
  apply (reachable_step ps2 NewLesTxRelay (CallRegisterPeer 1%N) _ []);
    [apply reachable_new|apply step_registerPeer].
Qed.

Lemma reachable_relay1 : reachable relay1.
Proof.
  apply (reachable_step ps1 NewLesTxRelay (CallRegisterPeer 2%N) _ []);
    [apply reachable_new|apply step_registerPeer].
Qed.

Lemma reachable_sent2 : reachable sent2.
Proof.
  apply (reachable_step ps2 relay2 (CallSend [tx7]) _ (Send ps2 relay2 [tx7]).2);
    [apply reachable_relay2|apply step_Send].
Qed.

Lemma reachable_sent1 : reachable sent1.
Proof.
  apply (reachable_step ps1 relay1 (CallSend [tx7]) _ (Send ps1 relay1 [tx7]).2);
    [apply reachable_relay1|apply step_Send].
Qed.

(** With two live peers and a peer for the gas fee recipient of [tx7], both
    iterations of the inner loop find that same peer: one request, for peer 1,
    with two copies. *)
Example send_tx7_ps2 :
  (Send ps2 relay2 [tx7]).2 = [ {| pp := 1%N; ll := [tx7; tx7] |} ].
Proof. vm_compute. reflexivity. Qed.

(** With nobody for the gas fee recipient, no request. *)
Example send_tx7_ps1 : (Send ps1 relay1 [tx7]).2 = [].
Proof. vm_compute. reflexivity. Qed.

(** * The claims *)

(** C7.  [registerPeer] and [unregisterPeer] leave the relay table [txSent] and
    the pending set [txPending] as they are; the one field they write is the
    cached peer list, which becomes the live peers of the peer set. *)
Theorem peer_notifications_frame ps self p :
  txSent (registerPeer ps self p) = txSent self ∧
  txPending (registerPeer ps self p) = txPending self ∧
  peerList (registerPeer ps self p) = AllPeers ps ∧
  txSent (unregisterPeer ps self p) = txSent self ∧
  txPending (unregisterPeer ps self p) = txPending self ∧
  peerList (unregisterPeer ps self p) = AllPeers ps.
Proof. repeat split. Qed.

(** C10.  A hash that is both in [mined] and in [rollback] of one [NewHead]
    call is pending after the call: the rolled back hashes are added after the
    mined ones are removed, and [send] removes nothing. *)
Theorem NewHead_rollback_wins ps self head mined rollback order hash :
  hash ∈ mined → hash ∈ rollback →
  rangeOrder (updatePending (txPending self) mined rollback) order →
  hash ∈ txPending (NewHead ps self head mined rollback order).1.
Proof.
  intros _ Hr _. apply NewHead_txPending, updatePending_spec. by left.
Qed.

Lemma NewHead_rollback_wins_witness :
  hash7 ∈ [hash7] ∧
  rangeOrder (updatePending (txPending sent2) [hash7] [hash7]) [hash7] ∧
  hash7 ∈ txPending (NewHead ps2 sent2 0%Z [hash7] [hash7] [hash7]).1.
Proof.
  assert (Hin : hash7 ∈ [hash7]) by left.
  assert (Hord : rangeOrder (updatePending (txPending sent2) [hash7] [hash7]) [hash7])
    by (vm_compute; reflexivity).
  split; [exact Hin|]. split; [exact Hord|].
  exact (NewHead_rollback_wins ps2 sent2 0%Z [hash7] [hash7] [hash7] hash7 Hin Hin Hord).
Defined.

(** C5.  In every reachable state, and for [a ≠ b], after
    [NewHead(h, [a], [b])] the hash [a] is not pending and the hash [b] is. *)
Theorem NewHead_pending_consistency ps self head a b order :
  reachable self → a ≠ b →
  rangeOrder (updatePending (txPending self) [a] [b]) order →
  (a ∉ txPending (NewHead ps self head [a] [b] order).1) ∧
  b ∈ txPending (NewHead ps self head [a] [b] order).1.
Proof.
  intros Hreach Hab _.
  rewrite NewHead_keyed by (by apply reachable_keyed). cbn [fst headUpdated txPending].
  rewrite !updatePending_spec. split.
  - intros [H|[_ H]].
    + apply list_elem_of_singleton in H. done.
    + apply H. left.
  - left. left.
Qed.

Lemma NewHead_pending_consistency_witness :
  hash7 ∈ txPending sent2 ∧
  (hash7 ∉ txPending (NewHead ps2 sent2 0%Z [hash7] [hash8] [hash8]).1) ∧
  hash8 ∈ txPending (NewHead ps2 sent2 0%Z [hash7] [hash8] [hash8]).1.
Proof.
  split.
  - vm_compute. reflexivity.
  - apply NewHead_pending_consistency.
    + apply reachable_sent2.
    + discriminate.
    + vm_compute. reflexivity.
Defined.

(** C9.  In every reachable state the set [sentTo] of every entry of every
    record of the relay table is empty. *)
Theorem sentTo_always_empty self hash r l :
  reachable self → txSent self !! hash = Some r → l ∈ r → sentTo l = ∅.
Proof. intros Hreach. by apply reachable_undelivered. Qed.

Lemma sentTo_always_empty_witness :
  ∃ l1 l2, txSent sent2 !! hash7 = Some [l1; l2] ∧ sentTo l1 = ∅ ∧ sentTo l2 = ∅.
Proof.
  exists {| tx := tx7; sentTo := ∅ |}, {| tx := tx7; sentTo := ∅ |}.
  assert (Hr : txSent sent2 !! hash7 =
               Some [{| tx := tx7; sentTo := ∅ |}; {| tx := tx7; sentTo := ∅ |}])
    by (vm_compute; reflexivity).
  split; [exact Hr|]. split.
  - apply (sentTo_always_empty sent2 hash7 _ _ reachable_sent2 Hr). left.
  - apply (sentTo_always_empty sent2 hash7 _ _ reachable_sent2 Hr). right. left.
Defined.

(** The hypothesis on the state matters in C5: in a table whose record for
    hash 8 holds a copy of hash 7 (no run of the relay builds one), the replay
    of [NewHead] sends that copy afresh and hash 7 is pending again. *)
Example NewHead_unkeyed_example :
  hash7 ∈ txPending
    (NewHead ps2
       {| txSent := {[hash8 := [{| tx := tx7; sentTo := ∅ |}]]};
          txPending := ∅; peerList := [1%N; 2%N] |}
       0%Z [hash7] [hash8] [hash8]).1.
Proof. vm_compute. reflexivity. Qed.

(** C8.  A record of the relay table stays, unchanged, through every call
    that is not a [Discard] of its hash: [Send], [NewHead], [registerPeer],
    [unregisterPeer] and a [Discard] of other hashes keep it.  A [Discard]
    that names the hash removes it from the relay table and from the pending
    set together. *)
Theorem record_persists_until_Discard ps self c self' out hash r :
  step ps self c self' out →
  txSent self !! hash = Some r →
  match c with
  | CallDiscard hashes =>
      if decide (hash ∈ hashes)
      then txSent self' !! hash = None ∧ hash ∉ txPending self'
      else txSent self' !! hash = Some r
  | _ => txSent self' !! hash = Some r
  end.
Proof.
  intros [p|p|txs|head mined rollback order _|hashes] Hr; try done.
  - unfold Send. rewrite send_state. unfold fanOut. by apply foldl_sendTx_txSent.
  - by apply NewHead_txSent.
  - rewrite Discard_txSent. case_decide; [|done].
    split; [done|]. rewrite Discard_txPending. tauto.
Qed.

Lemma record_persists_until_Discard_witness :
  txSent sent2 !! hash7 =
    Some [{| tx := tx7; sentTo := ∅ |}; {| tx := tx7; sentTo := ∅ |}] ∧
  txSent (NewHead ps1 sent2 0%Z [hash7] [] []).1 !! hash7 =
    Some [{| tx := tx7; sentTo := ∅ |}; {| tx := tx7; sentTo := ∅ |}] ∧
  txSent (Discard sent2 [hash7]) !! hash7 = None ∧
  hash7 ∉ txPending (Discard sent2 [hash7]).
Proof.
  assert (Hr : txSent sent2 !! hash7 =
               Some [{| tx := tx7; sentTo := ∅ |}; {| tx := tx7; sentTo := ∅ |}])
    by (vm_compute; reflexivity).
  assert (Hord : rangeOrder (updatePending (txPending sent2) [hash7] []) [])
    by (vm_compute; reflexivity).
  split; [exact Hr|]. split.
  - exact (record_persists_until_Discard ps1 sent2 (CallNewHead 0%Z [hash7] []) _ _
             hash7 _ (step_NewHead ps1 sent2 0%Z [hash7] [] [] Hord) Hr).
  - exact (record_persists_until_Discard ps1 sent2 (CallDiscard [hash7]) _ _
             hash7 _ (step_Discard ps1 sent2 [hash7]) Hr).
Defined.

(** ** [Send] of a single transaction *)

Lemma Send_single_new ps self t :
  txSent self !! types.Hash t = None →
  Send ps self [t] =
    ({| txSent := <[types.Hash t := (relayLoop ps t (relayWidth self) ∅ []).2]> (txSent self);
        txPending := {[types.Hash t]} ∪ txPending self;
        peerList := peerList self |},
     requests (relayLoop ps t (relayWidth self) ∅ []).1).
Proof.
  intros H. unfold Send, send, fanOut. cbn [foldl]. by rewrite sendTx_new.
Qed.

(** C4.  When the hash already has a record, [Send] runs as if the
    transactions of that hash were not in its input: no peer is looked up and
    no copy is made for them.  The record of the hash stays as it is, the hash
    is pending after the call exactly when it was before, and no request
    carries a transaction of that hash. *)
Theorem Send_dedup ps self txs hash r :
  txSent self !! hash = Some r →
  Send ps self txs = Send ps self (filter (λ t, types.Hash t ≠ hash) txs) ∧
  txSent (Send ps self txs).1 !! hash = Some r ∧
  (hash ∈ txPending (Send ps self txs).1 ↔ hash ∈ txPending self) ∧
  ∀ rq t, rq ∈ (Send ps self txs).2 → t ∈ ll rq → types.Hash t ≠ hash.
Proof.
  intros Hr. split.
  - unfold Send, send, fanOut.
    by rewrite (foldl_sendTx_filter ps hash txs (self, ∅)) by (by exists r).
  - by apply send_skips_known.
Qed.

Lemma Send_dedup_witness :
  txSent sent2 !! hash7 =
    Some [{| tx := tx7; sentTo := ∅ |}; {| tx := tx7; sentTo := ∅ |}] ∧
  Send ps2 sent2 [tx7] = Send ps2 sent2 [] ∧
  txSent (Send ps2 sent2 [tx7]).1 !! hash7 =
    Some [{| tx := tx7; sentTo := ∅ |}; {| tx := tx7; sentTo := ∅ |}].
Proof.
  assert (Hr : txSent sent2 !! hash7 =
               Some [{| tx := tx7; sentTo := ∅ |}; {| tx := tx7; sentTo := ∅ |}])
    by (vm_compute; reflexivity).
  destruct (Send_dedup ps2 sent2 [tx7] hash7 _ Hr) as (Heq & Hrec & _).
  split; [exact Hr|]. split; [|exact Hrec].
  etrans; [exact Heq|]. vm_compute. reflexivity.
Defined.

(** C6.  After [Discard([h])] the hash [h] has no record and is not pending.
    A [Send] of a transaction of hash [h] then fans out afresh: it queues the
    requests, stores the record and marks the hash pending exactly as the same
    [Send] does in a relay [fresh] that has the same cached peers and has no
    record of [h]; the requests are those of the inner loop started on an empty
    [sendTo].  A [Discard] of a hash that has no record and is not pending
    returns the relay unchanged ([Discard] has no error result). *)
Theorem Discard_finality ps self fresh t :
  txSent fresh !! types.Hash t = None →
  peerList fresh = peerList self →
  txSent (Discard self [types.Hash t]) !! types.Hash t = None ∧
  (types.Hash t ∉ txPending (Discard self [types.Hash t])) ∧
  (Send ps (Discard self [types.Hash t]) [t]).2 = (Send ps fresh [t]).2 ∧
  txSent (Send ps (Discard self [types.Hash t]) [t]).1 !! types.Hash t =
    txSent (Send ps fresh [t]).1 !! types.Hash t ∧
  types.Hash t ∈ txPending (Send ps (Discard self [types.Hash t]) [t]).1 ∧
  (Send ps (Discard self [types.Hash t]) [t]).2 =
    requests (relayLoop ps t (relayWidth self) ∅ []).1 ∧
  (txSent self !! types.Hash t = None → types.Hash t ∉ txPending self →
   Discard self [types.Hash t] = self).
Proof.
  intros Hfresh Hpl.
  assert (Hgone : txSent (Discard self [types.Hash t]) !! types.Hash t = None).
  { rewrite Discard_txSent. rewrite decide_True; [done|left]. }
  assert (Hw : relayWidth (Discard self [types.Hash t]) = relayWidth self).
  { unfold relayWidth. by rewrite Discard_peerList. }
  assert (Hw' : relayWidth fresh = relayWidth self).
  { unfold relayWidth. by rewrite Hpl. }
  rewrite (Send_single_new ps _ t Hgone), (Send_single_new ps _ t Hfresh).
  cbn [fst snd txSent txPending]. rewrite Hw, Hw', !lookup_insert_eq.
  split; [exact Hgone|]. split.
  { rewrite Discard_txPending. intros [_ H]. apply H. left. }
  split; [done|]. split; [done|]. split; [set_solver|]. split; [done|].
  intros Hnone Hnp. unfold Discard. cbn [foldl].
  rewrite delete_id by done.
  rewrite difference_disjoint_L by set_solver.
  by destruct self.
Qed.

Lemma Discard_finality_witness :
  txSent relay2 !! types.Hash tx7 = None ∧
  peerList relay2 = peerList sent2 ∧
  txSent (Discard sent2 [hash7]) !! hash7 = None ∧
  (Send ps2 (Discard sent2 [hash7]) [tx7]).2 = (Send ps2 relay2 [tx7]).2 ∧
  (Send ps2 (Discard sent2 [hash7]) [tx7]).2 = [ {| pp := 1%N; ll := [tx7; tx7] |} ].
Proof.
  assert (Hfresh : txSent relay2 !! types.Hash tx7 = None) by (vm_compute; reflexivity).
  assert (Hpl : peerList relay2 = peerList sent2) by (vm_compute; reflexivity).
  destruct (Discard_finality ps2 sent2 relay2 tx7 Hfresh Hpl)
    as (Hgone & _ & Hreq & _).
  split; [exact Hfresh|]. split; [exact Hpl|]. split; [exact Hgone|].
  split; [exact Hreq|].
  etrans; [exact Hreq|]. vm_compute. reflexivity.
Defined.

(** ** Transactions without a peer *)

(** A hash that gets its record during the loop is pending after it. *)
Lemma foldl_sendTx_new_pending ps hash txs : ∀ acc,
  (is_Some (txSent acc.1 !! hash) → hash ∈ txPending acc.1) →
  is_Some (txSent (foldl (sendTx ps) acc txs).1 !! hash) →
  hash ∈ txPending (foldl (sendTx ps) acc txs).1.
Proof.
  apply (foldl_sendTx_ind ps (λ acc,
    is_Some (txSent acc.1 !! hash) → hash ∈ txPending acc.1)).
  intros [self sendTo] t _ IH. simpl in IH.
  destruct (txSent self !! types.Hash t) as [r'|] eqn:E.
  { erewrite sendTx_known by done. done. }
  rewrite sendTx_new by done. simpl.
  destruct (decide (types.Hash t = hash)) as [Heq|Hne].
  - intros _. rewrite Heq. set_solver.
  - rewrite lookup_insert_ne by done. intros H. set_solver.
Qed.

(** C2, as the code has it.  A transaction of a new hash for which no peer is
    found is recorded all the same: after [Send] its hash has a record, the
    empty one, and is pending, and no request carries it.  In every later
    [Send] the hash is skipped: the empty record stays and no request carries
    a transaction of that hash. *)
Theorem Send_no_peer_recorded ps self txs t :
  t ∈ txs →
  txSent self !! types.Hash t = None →
  (∀ t', t' ∈ txs → types.Hash t' = types.Hash t →
         getPeerWithEtherbase ps (types.GasFeeRecipient t') = None) →
  txSent (Send ps self txs).1 !! types.Hash t = Some [] ∧
  types.Hash t ∈ txPending (Send ps self txs).1 ∧
  (∀ rq x, rq ∈ (Send ps self txs).2 → x ∈ ll rq → types.Hash x ≠ types.Hash t) ∧
  ∀ ps' txs',
    txSent (Send ps' (Send ps self txs).1 txs').1 !! types.Hash t = Some [] ∧
    ∀ rq x, rq ∈ (Send ps' (Send ps self txs).1 txs').2 → x ∈ ll rq →
            types.Hash x ≠ types.Hash t.
Proof.
  intros Ht Hnew Hmiss.
  destruct (foldl_sendTx_miss ps (types.Hash t) txs Hmiss (self, ∅)) as [Hrec Hno].
  { split; [by left|]. intros p x Hb. by apply inBatch_empty in Hb. }
  pose proof (foldl_sendTx_recorded ps txs (self, ∅) t Ht) as Hsome.
  assert (Hempty : txSent (Send ps self txs).1 !! types.Hash t = Some []).
  { unfold Send. rewrite send_state. unfold fanOut.
    destruct Hrec as [Hrec|Hrec]; [|done]. rewrite Hrec in Hsome. by destruct Hsome. }
  split; [exact Hempty|]. split; [|split].
  - unfold Send. rewrite send_state. unfold fanOut.
    apply foldl_sendTx_new_pending; [|done]. simpl. rewrite Hnew. by intros [? ?].
  - intros rq x Hrq Hx. unfold Send in Hrq. rewrite send_requests in Hrq.
    eapply Hno. by eapply request_inBatch.
  - intros ps' txs'.
    destruct (send_skips_known ps' (Send ps self txs).1 txs' _ _ Hempty) as (H1 & _ & H2).
    split; [exact H1|exact H2].
Qed.

Lemma Send_no_peer_recorded_witness :
  getPeerWithEtherbase ps1 (types.GasFeeRecipient tx7) = None ∧
  txSent relay1 !! types.Hash tx7 = None ∧
  txSent (Send ps1 relay1 [tx7]).1 !! types.Hash tx7 = Some [] ∧
  types.Hash tx7 ∈ txPending (Send ps1 relay1 [tx7]).1.
Proof.
  assert (Hmiss : getPeerWithEtherbase ps1 (types.GasFeeRecipient tx7) = None)
    by reflexivity.
  assert (Hnew : txSent relay1 !! types.Hash tx7 = None) by (vm_compute; reflexivity).
  assert (Hin : tx7 ∈ [tx7]) by left.
  assert (Hall : ∀ t', t' ∈ [tx7] → types.Hash t' = types.Hash tx7 →
                       getPeerWithEtherbase ps1 (types.GasFeeRecipient t') = None).
  { intros t' Ht' _. apply list_elem_of_singleton in Ht'. rewrite Ht'. exact Hmiss. }
  destruct (Send_no_peer_recorded ps1 relay1 [tx7] tx7 Hin Hnew Hall) as (Hrec & Hp & _).
  split; [exact Hmiss|]. split; [exact Hnew|]. split; [exact Hrec|exact Hp].
Defined.

(** C2 as stated fails: the hash of a transaction without a peer is in the
    relay table after [Send]. *)
Lemma Send_no_peer_absent_counterexample :
  ¬ (∀ ps self t,
       txSent self !! types.Hash t = None →
       getPeerWithEtherbase ps (types.GasFeeRecipient t) = None →
       txSent (Send ps self [t]).1 !! types.Hash t = None).
Proof.
  intros H. specialize (H ps1 relay1 tx7 eq_refl eq_refl).
  vm_compute in H. discriminate H.
Qed.

(** The later [Send] of the same transaction, now that peer 1 answers for its
    gas fee recipient, queues nothing. *)
Example Send_again_after_no_peer : (Send ps2 sent1 [tx7]).2 = [].
Proof. vm_compute. reflexivity. Qed.

(** ** The width of the fan-out *)

(** C3, as the code has it.  For a new transaction of the input of [Send],
    the requests target at most [min(3, P)] distinct peers with it, [P] being
    the length of the cached peer list. *)
Theorem fanout_width_bound ps self txs t :
  t ∈ txs →
  txSent self !! types.Hash t = None →
  size (targets (types.Hash t) (Send ps self txs).2) ≤
  Nat.min 3 (length (peerList self)).
Proof. intros _ _. apply send_width. Qed.

Lemma fanout_width_bound_witness :
  tx7 ∈ [tx7] ∧
  txSent relay2 !! types.Hash tx7 = None ∧
  length (peerList relay2) = 2 ∧
  size (targets (types.Hash tx7) (Send ps2 relay2 [tx7]).2) ≤ 2.
Proof.
  assert (Hin : tx7 ∈ [tx7]) by left.
  assert (Hnew : txSent relay2 !! types.Hash tx7 = None) by (vm_compute; reflexivity).
  split; [exact Hin|]. split; [exact Hnew|]. split; [reflexivity|].
  exact (fanout_width_bound ps2 relay2 [tx7] tx7 Hin Hnew).
Defined.

(** C3 as stated fails: one live peer, none for the gas fee recipient, and the
    transaction is sent to nobody, not to [min(3, 1) = 1] peer. *)
Lemma fanout_width_exact_counterexample :
  ¬ (∀ ps self t,
       txSent self !! types.Hash t = None →
       size (targets (types.Hash t) (Send ps self [t]).2) =
       Nat.min 3 (length (peerList self))).
Proof.
  intros H. specialize (H ps1 relay1 tx7 eq_refl).
  vm_compute in H. discriminate H.
Qed.

(** With two live peers and a peer for the gas fee recipient the transaction
    reaches one peer, twice in the same batch, not two peers. *)
Example fanout_same_peer :
  size (targets (types.Hash tx7) (Send ps2 relay2 [tx7]).2) = 1.
Proof. vm_compute. reflexivity. Qed.

(** ** The replay of [NewHead] *)

(** In a reachable state [NewHead] queues no request at all, whatever is
    pending: every copy it collects has a record and [send] skips it. *)
Lemma NewHead_reachable_no_request ps self head mined rollback order :
  reachable self → (NewHead ps self head mined rollback order).2 = [].
Proof. intros Hreach. by rewrite NewHead_keyed by (by apply reachable_keyed). Qed.

(** C1, on a run.  [Send([tx7])] queues a request for peer 1 with the two
    copies of its record; the rollback of hash 7 that follows leaves the hash
    pending, with its record, and [NewHead] queues nothing. *)
Theorem NewHead_replay_queues_nothing :
  (Send ps2 relay2 [tx7]).2 = [ {| pp := 1%N; ll := [tx7; tx7] |} ] ∧
  rangeOrder (updatePending (txPending sent2) [] [hash7]) [hash7] ∧
  hash7 ∈ txPending (NewHead ps2 sent2 0%Z [] [hash7] [hash7]).1 ∧
  txSent (NewHead ps2 sent2 0%Z [] [hash7] [hash7]).1 !! hash7 =
    Some [{| tx := tx7; sentTo := ∅ |}; {| tx := tx7; sentTo := ∅ |}] ∧
  (NewHead ps2 sent2 0%Z [] [hash7] [hash7]).2 = [].
Proof.
  split; [vm_compute; reflexivity|]. split; [vm_compute; reflexivity|].
  split; [|split].
  - apply NewHead_txPending, updatePending_spec. left. left.
  - apply NewHead_txSent. vm_compute. reflexivity.
  - apply NewHead_reachable_no_request, reachable_sent2.
Qed.

(** * Further properties of the relay *)

(** ** The inner loop, in closed form *)

(** When the lookup answers [p], [n] iterations append [n] copies to the
    batch of [p] and [n] entries to the record. *)
Lemma relayLoop_hit ps t p n : ∀ sendTo ltrs,
  getPeerWithEtherbase ps (types.GasFeeRecipient t) = Some p →
  relayLoop ps t n sendTo ltrs =
    (match n with
     | O => sendTo
     | S _ => <[p := default [] (sendTo !! p) ++ replicate n t]> sendTo
     end,
     ltrs ++ replicate n {| tx := t; sentTo := ∅ |}).
Proof.
  induction n as [|n IH]; intros sendTo ltrs Hp.
  - simpl. by rewrite app_nil_r.
  - cbn [relayLoop]. rewrite Hp, IH by done. f_equal.
    + destruct n as [|n]; [done|].
      unfold appendTo. rewrite lookup_insert_eq, insert_insert_eq. simpl.
      by rewrite <- app_assoc.
    + by rewrite <- app_assoc.
Qed.

(** The record built by the loop does not depend on the batches. *)
Lemma relayLoop_record ps t n sendTo :
  (relayLoop ps t n sendTo []).2 =
  replicate (match getPeerWithEtherbase ps (types.GasFeeRecipient t) with
             | Some _ => n
             | None => 0
             end)
            {| tx := t; sentTo := ∅ |}.
Proof.
  destruct (getPeerWithEtherbase ps (types.GasFeeRecipient t)) as [p|] eqn:E.
  - by rewrite (relayLoop_hit ps t p).
  - by rewrite relayLoop_miss.
Qed.

Lemma relayWidth_le self : relayWidth self ≤ numRelayPeers.
Proof. unfold relayWidth. lia. Qed.

(** ** Records are uniform *)

Lemma sendTx_uniform ps acc t :
  uniform (txSent acc.1) → uniform (txSent (sendTx ps acc t).1).
Proof.
  destruct acc as [self sendTo]. simpl. intros Hu.
  destruct (txSent self !! types.Hash t) as [r'|] eqn:E.
  - by erewrite sendTx_known.
  - rewrite sendTx_new by done. simpl. intros hash r Hr.
    destruct (decide (types.Hash t = hash)) as [<-|Hne].
    + rewrite lookup_insert_eq in Hr. injection Hr as <-.
      rewrite relayLoop_record. eexists t, _. split; [|done].
      pose proof (relayWidth_le self).
      destruct (getPeerWithEtherbase ps (types.GasFeeRecipient t)); lia.
    + rewrite lookup_insert_ne in Hr by done. by apply Hu.
Qed.

Lemma uniform_empty : uniform ∅.
Proof. intros hash r Hr. by rewrite lookup_empty in Hr. Qed.

Lemma reachable_uniform self : reachable self → uniform (txSent self).
Proof.
  induction 1 as [|ps self c self' out Hreach IH Hstep].
  - apply uniform_empty.
  - destruct Hstep as [p|p|txs|head mined rollback order _|hashes]; try done.
    + unfold Send. rewrite send_state. unfold fanOut.
      apply (foldl_sendTx_ind ps (λ acc, uniform (txSent acc.1))); [|done].
      intros acc t _. apply sendTx_uniform.
    + by rewrite NewHead_keyed by (by apply reachable_keyed).
    + intros hash r Hr. rewrite Discard_txSent in Hr.
      case_decide; [done|]. by apply IH.
Qed.

(** X1.  In every reachable state each record of the relay table is a run of
    at most three identical entries: copies of one transaction, whose hash is
    the key of the record, each with an empty [sentTo]. *)
Theorem records_are_uniform self hash r :
  reachable self → txSent self !! hash = Some r →
  ∃ t k, k ≤ 3 ∧ types.Hash t = hash ∧ r = replicate k {| tx := t; sentTo := ∅ |}.
Proof. intros Hreach Hr. by apply (reachable_uniform self Hreach). Qed.

Lemma records_are_uniform_witness :
  ∃ r, txSent sent2 !! hash7 = Some r ∧
       ∃ t k, k ≤ 3 ∧ types.Hash t = hash7 ∧ r = replicate k {| tx := t; sentTo := ∅ |}.
Proof.
  assert (Hr : txSent sent2 !! hash7 =
               Some [{| tx := tx7; sentTo := ∅ |}; {| tx := tx7; sentTo := ∅ |}])
    by (vm_compute; reflexivity).
  eexists. split; [exact Hr|].
  exact (records_are_uniform sent2 hash7 _ reachable_sent2 Hr).
Defined.

(** ** What [Send] does to the tables *)

(** X2.  After [Send] every transaction of the input has a record, and the
    hash of a transaction that had none before the call is pending. *)
Theorem Send_records_every_input ps self txs t :
  t ∈ txs →
  is_Some (txSent (Send ps self txs).1 !! types.Hash t) ∧
  (txSent self !! types.Hash t = None →
   types.Hash t ∈ txPending (Send ps self txs).1).
Proof.
  intros Ht. unfold Send. rewrite send_state. unfold fanOut.
  pose proof (foldl_sendTx_recorded ps txs (self, ∅) t Ht) as Hrec.
  split; [exact Hrec|]. intros Hnew.
  apply foldl_sendTx_new_pending; [|exact Hrec].
  simpl. rewrite Hnew. by intros [? ?].
Qed.

Lemma Send_records_every_input_witness :
  tx7 ∈ [tx7] ∧
  is_Some (txSent (Send ps1 relay1 [tx7]).1 !! types.Hash tx7) ∧
  (txSent relay1 !! types.Hash tx7 = None →
   types.Hash tx7 ∈ txPending (Send ps1 relay1 [tx7]).1).
Proof.
  assert (Hin : tx7 ∈ [tx7]) by left.
  split; [exact Hin|].
  exact (Send_records_every_input ps1 relay1 [tx7] tx7 Hin).
Defined.

(** X3.  A [Send] of transactions that were all in the input of an earlier
    [Send] does nothing, whatever the peer set has become: the state is
    returned as it is and no request is queued. *)
Theorem Send_again_is_noop ps ps' self txs txs' :
  txs' ⊆ txs →
  Send ps' (Send ps self txs).1 txs' = ((Send ps self txs).1, []).
Proof.
  intros Hsub. unfold Send at 1. unfold send, fanOut.
  rewrite foldl_sendTx_all_known; [by rewrite requests_empty|].
  intros t Ht. cbn [fst]. unfold Send. rewrite send_state.
  by apply foldl_sendTx_recorded, Hsub.
Qed.

Lemma Send_again_is_noop_witness :
  [tx7] ⊆ [tx7; tx7] ∧
  Send ps1 (Send ps2 relay2 [tx7; tx7]).1 [tx7] = ((Send ps2 relay2 [tx7; tx7]).1, []).
Proof.
  assert (Hsub : [tx7] ⊆ [tx7; tx7]).
  { intros x Hx. apply list_elem_of_singleton in Hx. rewrite Hx. left. }
  split; [exact Hsub|].
  exact (Send_again_is_noop ps2 ps1 relay2 [tx7; tx7] [tx7] Hsub).
Defined.

Lemma sendTx_txPending_other ps acc t hash :
  types.Hash t ≠ hash →
  hash ∈ txPending (sendTx ps acc t).1 → hash ∈ txPending acc.1.
Proof.
  destruct acc as [self sendTo]. simpl. intros Hne.
  destruct (txSent self !! types.Hash t) as [r'|] eqn:E.
  - by erewrite sendTx_known.
  - rewrite sendTx_new by done. simpl.
    intros [H|H]%elem_of_union; [|done]. by apply elem_of_singleton in H.
Qed.

(** X4.  [Send] touches only the hashes of its input: for a hash that no
    transaction of the input has, the record, the membership in the pending
    set and the carried transactions are as before, and no request carries a
    transaction of that hash.  The cached peer list is never written. *)
Theorem Send_frame ps self txs hash :
  (∀ t, t ∈ txs → types.Hash t ≠ hash) →
  txSent (Send ps self txs).1 !! hash = txSent self !! hash ∧
  (hash ∈ txPending (Send ps self txs).1 ↔ hash ∈ txPending self) ∧
  (∀ rq t, rq ∈ (Send ps self txs).2 → t ∈ ll rq → types.Hash t ≠ hash) ∧
  peerList (Send ps self txs).1 = peerList self.
Proof.
  intros Hother. unfold Send. rewrite send_state, send_requests. unfold fanOut.
  split; [|split; [|split]].
  - apply (foldl_sendTx_ind ps (λ acc, txSent acc.1 !! hash = txSent self !! hash));
      [|done].
    intros acc t Ht IH. rewrite sendTx_txSent_other; [done|by apply Hother].
  - split; [|apply (foldl_sendTx_txPending ps txs (self, ∅) hash)].
    apply (foldl_sendTx_ind ps (λ acc, hash ∈ txPending acc.1 → hash ∈ txPending self));
      [|done].
    intros acc t Ht IH H. apply IH.
    eapply sendTx_txPending_other; [|exact H]. by apply Hother.
  - intros rq t Hrq Ht.
    pose proof (request_inBatch _ _ _ Hrq Ht) as Hin.
    apply foldl_sendTx_batches in Hin as [Hin|Hin].
    + by apply inBatch_empty in Hin.
    + by apply Hother.
  - apply (foldl_sendTx_peerList ps txs (self, ∅)).
Qed.

Lemma Send_frame_witness :
  (∀ t, t ∈ [tx7] → types.Hash t ≠ hash8) ∧
  txSent (Send ps2 sent2 [tx7]).1 !! hash8 = txSent sent2 !! hash8 ∧
  peerList (Send ps2 sent2 [tx7]).1 = peerList sent2.
Proof.
  assert (Hother : ∀ t, t ∈ [tx7] → types.Hash t ≠ hash8).
  { intros t Ht. apply list_elem_of_singleton in Ht. rewrite Ht. discriminate. }
  destruct (Send_frame ps2 sent2 [tx7] hash8 Hother) as (H1 & _ & _ & H4).
  split; [exact Hother|]. split; [exact H1|exact H4].
Defined.

(** ** The requests of [Send] *)

Lemma routed_empty ps : routed ps ∅.
Proof. intros p l Hl. by rewrite lookup_empty in Hl. Qed.

Lemma relayLoop_routed ps t n sendTo ltrs :
  routed ps sendTo → routed ps (relayLoop ps t n sendTo ltrs).1.
Proof.
  intros Hr.
  destruct (getPeerWithEtherbase ps (types.GasFeeRecipient t)) as [p|] eqn:E.
  - rewrite (relayLoop_hit ps t p) by done. cbn [fst].
    destruct n as [|n]; [done|].
    intros q l Hl. destruct (decide (p = q)) as [<-|Hne].
    + rewrite lookup_insert_eq in Hl. injection Hl as <-. split.
      * intros [_ H]%app_eq_nil. discriminate H.
      * intros x [Hx|Hx]%elem_of_app.
        -- destruct (sendTo !! p) as [l0|] eqn:E0; simpl in Hx.
           ++ by apply (Hr p l0).
           ++ by apply elem_of_nil in Hx.
        -- apply (elem_of_replicate (S n)) in Hx as [-> _]. done.
    + rewrite lookup_insert_ne in Hl by done. by apply Hr.
  - by rewrite relayLoop_miss.
Qed.

Lemma sendTx_routed ps acc t : routed ps acc.2 → routed ps (sendTx ps acc t).2.
Proof.
  destruct acc as [self sendTo]. simpl. intros Hr.
  destruct (txSent self !! types.Hash t) as [r'|] eqn:E.
  - by erewrite sendTx_known.
  - rewrite sendTx_new by done. by apply relayLoop_routed.
Qed.

(** What the loop adds to the batches are transactions of the input whose
    hash had no record when the loop started. *)
Lemma foldl_sendTx_batches_new ps txs : ∀ acc p x,
  inBatch (foldl (sendTx ps) acc txs).2 p x →
  inBatch acc.2 p x ∨ (x ∈ txs ∧ txSent acc.1 !! types.Hash x = None).
Proof.
  induction txs as [|t txs IH]; intros acc p x; simpl; [by left|].
  intros H. apply IH in H as [H|[Hx Hnone]].
  - apply sendTx_batches in H as [H|[-> Hnone]]; [by left|].
    right. split; [by left|done].
  - right. split; [by right|].
    destruct (txSent acc.1 !! types.Hash x) as [r|] eqn:E; [|done].
    by rewrite (sendTx_txSent ps acc t _ r E) in Hnone.
Qed.

(** X5.  Every request that [Send] queues has a batch that is not empty; each
    transaction of the batch comes from the input, had no record before the
    call, and has a gas fee recipient whose peer is the peer of the request, so
    [canSend] accepts exactly the peer that the lookup answered for it. *)
Theorem Send_requests_routed ps self txs rq :
  rq ∈ (Send ps self txs).2 →
  ll rq ≠ [] ∧
  ∀ t, t ∈ ll rq →
    t ∈ txs ∧ txSent self !! types.Hash t = None ∧
    getPeerWithEtherbase ps (types.GasFeeRecipient t) = Some (pp rq) ∧
    ∀ dp, canSend rq dp = true ↔
          getPeerWithEtherbase ps (types.GasFeeRecipient t) = Some dp.
Proof.
  unfold Send. rewrite send_requests. unfold fanOut. intros Hrq.
  assert (Hr : routed ps (foldl (sendTx ps) (self, ∅) txs).2).
  { apply (foldl_sendTx_ind ps (λ acc, routed ps acc.2)).
    - intros acc t _. apply sendTx_routed.
    - apply routed_empty. }
  pose proof Hrq as Hl. apply elem_of_requests in Hl.
  destruct (Hr _ _ Hl) as [Hne Hall]. split; [exact Hne|].
  intros t Ht.
  pose proof (request_inBatch _ _ _ Hrq Ht) as Hin.
  apply foldl_sendTx_batches_new in Hin as [Hin|[Hin Hnew]].
  { by apply inBatch_empty in Hin. }
  split; [exact Hin|]. split; [exact Hnew|]. split; [by apply Hall|].
  intros dp. unfold canSend. rewrite bool_decide_eq_true, (Hall t Ht).
  split; [by intros ->|by intros [= ->]].
Qed.

Lemma Send_requests_routed_witness :
  {| pp := 1%N; ll := [tx7; tx7] |} ∈ (Send ps2 relay2 [tx7]).2 ∧
  getPeerWithEtherbase ps2 (types.GasFeeRecipient tx7) = Some 1%N.
Proof.
  assert (Hrq : {| pp := 1%N; ll := [tx7; tx7] |} ∈ (Send ps2 relay2 [tx7]).2).
  { vm_compute. left. }
  split; [exact Hrq|].
  destruct (Send_requests_routed ps2 relay2 [tx7] _ Hrq) as [_ Hall].
  destruct (Hall tx7) as (_ & _ & Hp & _); [left|]. exact Hp.
Defined.

(** X6.  [Send] queues at most one request per peer: the peers of its
    requests are pairwise distinct. *)
Theorem Send_one_request_per_peer ps self txs :
  NoDup (pp <$> (Send ps self txs).2).
Proof.
  unfold Send. rewrite send_requests. unfold requests.
  rewrite <- list_fmap_compose.
  apply (NoDup_fst_map_to_list (fanOut ps self txs).2).
Qed.

(** X7.  A [Send] of one new transaction, when the lookup answers peer [p]
    and the cached peer list is not empty, queues a single request: for [p],
    with [min(3, P)] copies of the transaction, and the record it stores holds
    as many entries. *)
Theorem Send_single_hit ps self t p :
  txSent self !! types.Hash t = None →
  getPeerWithEtherbase ps (types.GasFeeRecipient t) = Some p →
  peerList self ≠ [] →
  (Send ps self [t]).2 =
    [ {| pp := p; ll := replicate (Nat.min 3 (length (peerList self))) t |} ] ∧
  txSent (Send ps self [t]).1 !! types.Hash t =
    Some (replicate (Nat.min 3 (length (peerList self))) {| tx := t; sentTo := ∅ |}).
Proof.
  intros Hnew Hp Hpl. rewrite Send_single_new by done. cbn [fst snd txSent].
  rewrite lookup_insert_eq, (relayLoop_hit ps t p) by done. cbn [fst snd].
  change (Nat.min 3 (length (peerList self))) with (relayWidth self).
  split; [|done].
  destruct (relayWidth self) as [|n] eqn:En.
  - exfalso. unfold relayWidth, numRelayPeers in En.
    destruct (peerList self); [done|]. simpl in En. lia.
  - rewrite lookup_empty. cbn [default app]. unfold requests.
    by rewrite insert_empty, map_to_list_singleton.
Qed.

Lemma Send_single_hit_witness :
  txSent relay2 !! types.Hash tx7 = None ∧
  getPeerWithEtherbase ps2 (types.GasFeeRecipient tx7) = Some 1%N ∧
  peerList relay2 ≠ [] ∧
  (Send ps2 relay2 [tx7]).2 =
    [ {| pp := 1%N; ll := replicate (Nat.min 3 (length (peerList relay2))) tx7 |} ].
Proof.
  assert (Hnew : txSent relay2 !! types.Hash tx7 = None) by (vm_compute; reflexivity).
  assert (Hp : getPeerWithEtherbase ps2 (types.GasFeeRecipient tx7) = Some 1%N)
    by reflexivity.
  assert (Hpl : peerList relay2 ≠ []) by discriminate.
  destruct (Send_single_hit ps2 relay2 tx7 1%N Hnew Hp Hpl) as [Hreq _].
  split; [exact Hnew|]. split; [exact Hp|]. split; [exact Hpl|exact Hreq].
Defined.

(** X8.  The probe [HasPeerWithEtherbase] tells whether a [Send] relays: for
    a new transaction and a cached peer list that is not empty, the probe on
    the gas fee recipient returns nil exactly when [Send] queues a request. *)
Theorem HasPeerWithEtherbase_iff_relayed ps self t :
  txSent self !! types.Hash t = None →
  peerList self ≠ [] →
  HasPeerWithEtherbase ps (types.GasFeeRecipient t) = None ↔
  (Send ps self [t]).2 ≠ [].
Proof.
  intros Hnew Hpl. unfold HasPeerWithEtherbase.
  destruct (getPeerWithEtherbase ps (types.GasFeeRecipient t)) as [p|] eqn:E.
  - split; [|done]. intros _.
    rewrite Send_single_new by done. cbn [snd].
    rewrite (relayLoop_hit ps t p) by done. cbn [fst].
    destruct (relayWidth self) as [|n] eqn:En.
    + exfalso. unfold relayWidth, numRelayPeers in En.
      destruct (peerList self); [done|]. simpl in En. lia.
    + unfold requests. rewrite lookup_empty, insert_empty, map_to_list_singleton.
      discriminate.
  - split; [done|]. intros H. exfalso. apply H.
    rewrite Send_single_new by done. cbn [snd].
    rewrite relayLoop_miss by done. apply requests_empty.
Qed.

Lemma HasPeerWithEtherbase_iff_relayed_witness :
  txSent relay1 !! types.Hash tx7 = None ∧
  peerList relay1 ≠ [] ∧
  HasPeerWithEtherbase ps1 (types.GasFeeRecipient tx7) = Some () ∧
  ¬ (Send ps1 relay1 [tx7]).2 ≠ [].
Proof.
  assert (Hnew : txSent relay1 !! types.Hash tx7 = None) by (vm_compute; reflexivity).
  assert (Hpl : peerList relay1 ≠ []) by discriminate.
  split; [exact Hnew|]. split; [exact Hpl|]. split; [reflexivity|].
  intros H.
  apply (HasPeerWithEtherbase_iff_relayed ps1 relay1 tx7 Hnew Hpl) in H.
  discriminate H.
Defined.

(** ** [Send] and the cached peer list *)

(** X9.  With an empty cached peer list (as in a relay to which no peer was
    ever announced) [Send] queues nothing, whatever the peer set answers; each
    new transaction of the input is recorded with an empty record and marked
    pending all the same. *)
Theorem Send_without_cached_peers ps self txs :
  peerList self = [] →
  (Send ps self txs).2 = [] ∧
  ∀ t, t ∈ txs → txSent self !! types.Hash t = None →
    txSent (Send ps self txs).1 !! types.Hash t = Some [] ∧
    types.Hash t ∈ txPending (Send ps self txs).1.
Proof.
  intros Hpl. unfold Send. rewrite send_state, send_requests. unfold fanOut.
  assert (Hinv : (foldl (sendTx ps) (self, ∅) txs).2 = ∅ ∧
                 peerList (foldl (sendTx ps) (self, ∅) txs).1 = [] ∧
                 ∀ hash, txSent self !! hash = None →
                   txSent (foldl (sendTx ps) (self, ∅) txs).1 !! hash = None ∨
                   txSent (foldl (sendTx ps) (self, ∅) txs).1 !! hash = Some []).
  { apply (foldl_sendTx_ind ps (λ acc,
      acc.2 = ∅ ∧ peerList acc.1 = [] ∧
      ∀ hash, txSent self !! hash = None →
        txSent acc.1 !! hash = None ∨ txSent acc.1 !! hash = Some []));
      [|by split; [|split; [|left]]].
    intros [s m] t _ (Hm & Hs & Hrec). simpl in *.
    destruct (txSent s !! types.Hash t) as [r'|] eqn:E.
    { erewrite sendTx_known by done. done. }
    rewrite sendTx_new by done. unfold relayWidth. rewrite Hs. simpl.
    split; [done|]. split; [done|]. intros hash Hnone.
    destruct (decide (types.Hash t = hash)) as [<-|Hne].
    - right. apply lookup_insert_eq.
    - rewrite lookup_insert_ne by done. by apply Hrec. }
  destruct Hinv as (Hm & _ & Hrec). split.
  - rewrite Hm. apply requests_empty.
  - intros t Ht Hnew.
    pose proof (foldl_sendTx_recorded ps txs (self, ∅) t Ht) as Hsome.
    split.
    + destruct (Hrec _ Hnew) as [H|H]; [|done]. rewrite H in Hsome. by destruct Hsome.
    + apply foldl_sendTx_new_pending; [|done]. simpl. rewrite Hnew. by intros [? ?].
Qed.

Lemma Send_without_cached_peers_witness :
  peerList NewLesTxRelay = [] ∧
  (Send ps2 NewLesTxRelay [tx7]).2 = [] ∧
  txSent (Send ps2 NewLesTxRelay [tx7]).1 !! types.Hash tx7 = Some [].
Proof.
  assert (Hpl : peerList NewLesTxRelay = []) by reflexivity.
  destruct (Send_without_cached_peers ps2 NewLesTxRelay [tx7] Hpl) as [Hreq Hrec].
  split; [exact Hpl|]. split; [exact Hreq|].
  destruct (Hrec tx7) as [H _]; [left|reflexivity|exact H].
Defined.

Lemma foldl_sendTx_width_only ps txs : ∀ s1 s2 m,
  txSent s1 = txSent s2 → txPending s1 = txPending s2 →
  relayWidth s1 = relayWidth s2 →
  txSent (foldl (sendTx ps) (s1, m) txs).1 = txSent (foldl (sendTx ps) (s2, m) txs).1 ∧
  txPending (foldl (sendTx ps) (s1, m) txs).1 =
    txPending (foldl (sendTx ps) (s2, m) txs).1 ∧
  (foldl (sendTx ps) (s1, m) txs).2 = (foldl (sendTx ps) (s2, m) txs).2.
Proof.
  induction txs as [|t txs IH]; intros s1 s2 m Hs Hp Hw; simpl; [done|].
  destruct (txSent s1 !! types.Hash t) as [r'|] eqn:E.
  - rewrite (sendTx_known ps s1 m t r' E).
    rewrite Hs in E. rewrite (sendTx_known ps s2 m t r' E). rewrite <- Hs in E.
    by apply IH.
  - rewrite (sendTx_new ps s1 m t E).
    rewrite Hs in E. rewrite (sendTx_new ps s2 m t E).
    rewrite Hw, Hs, Hp. by apply IH.
Qed.

(** X10.  [Send] reads the cached peer list for its length only, and that up
    to three: two relays with the same tables and the same [min(3, P)] get the
    same tables and the same requests from the same [Send], whoever the cached
    peers are. *)
Theorem Send_reads_only_width ps self self' txs :
  txSent self = txSent self' →
  txPending self = txPending self' →
  Nat.min 3 (length (peerList self)) = Nat.min 3 (length (peerList self')) →
  txSent (Send ps self txs).1 = txSent (Send ps self' txs).1 ∧
  txPending (Send ps self txs).1 = txPending (Send ps self' txs).1 ∧
  (Send ps self txs).2 = (Send ps self' txs).2.
Proof.
  intros Hs Hp Hw. unfold Send. rewrite !send_state, !send_requests. unfold fanOut.
  destruct (foldl_sendTx_width_only ps txs self self' ∅ Hs Hp Hw) as (H1 & H2 & H3).
  by rewrite H1, H2, H3.
Qed.

Lemma Send_reads_only_width_witness :
  (Send ps2 relay2 [tx7]).2 =
  (Send ps2 {| txSent := ∅; txPending := ∅; peerList := [5%N; 6%N] |} [tx7]).2.
Proof.
  destruct (Send_reads_only_width ps2 relay2
              {| txSent := ∅; txPending := ∅; peerList := [5%N; 6%N] |} [tx7]
              eq_refl eq_refl eq_refl) as (_ & _ & H).
  exact H.
Defined.

(** ** [Send] of a concatenation *)

Lemma batchFor_requests p sendTo :
  batchFor p (requests sendTo) = default [] (sendTo !! p).
Proof.
  unfold batchFor, requests. rewrite <- list_fmap_compose.
  assert (Hid : ((λ rq, (pp rq, ll rq)) ∘
                 (λ pl : peer * types.Transactions, {| pp := pl.1; ll := pl.2 |}))
                <$> map_to_list sendTo = map_to_list sendTo).
  { rewrite <- (list_fmap_id (map_to_list sendTo)) at 2.
    apply list_fmap_ext. by intros i [q l] _. }
  by rewrite Hid, list_to_map_to_list.
Qed.

Lemma relayLoop_batch ps t n sendTo ltrs q :
  default [] ((relayLoop ps t n sendTo ltrs).1 !! q) =
  default [] (sendTo !! q) ++
  match getPeerWithEtherbase ps (types.GasFeeRecipient t) with
  | Some p => if decide (p = q) then replicate n t else []
  | None => []
  end.
Proof.
  destruct (getPeerWithEtherbase ps (types.GasFeeRecipient t)) as [p|] eqn:E.
  - rewrite (relayLoop_hit ps t p) by done. cbn [fst].
    destruct n as [|n].
    + case_decide; by rewrite app_nil_r.
    + destruct (decide (p = q)) as [<-|Hne].
      * by rewrite lookup_insert_eq.
      * by rewrite lookup_insert_ne, app_nil_r.
  - rewrite relayLoop_miss by done. by rewrite app_nil_r.
Qed.

(** Started on batches [sendTo], the loop ends in the state it reaches from
    empty batches, each batch being what was there followed by what the loop
    adds from empty batches. *)
Lemma foldl_sendTx_from ps txs : ∀ self sendTo,
  (foldl (sendTx ps) (self, sendTo) txs).1 = (foldl (sendTx ps) (self, ∅) txs).1 ∧
  ∀ q, default [] ((foldl (sendTx ps) (self, sendTo) txs).2 !! q) =
       default [] (sendTo !! q) ++
       default [] ((foldl (sendTx ps) (self, ∅) txs).2 !! q).
Proof.
  induction txs as [|t txs IH]; intros self sendTo; simpl.
  - split; [done|]. intros q. by rewrite lookup_empty, app_nil_r.
  - destruct (txSent self !! types.Hash t) as [r'|] eqn:E.
    + rewrite !(sendTx_known ps self _ t r' E). apply IH.
    + rewrite !(sendTx_new ps self _ t E), !relayLoop_record.
      set (self1 := {| txSent := _; txPending := _; peerList := _ |}).
      destruct (IH self1 (relayLoop ps t (relayWidth self) sendTo []).1) as [Hs Hb].
      destruct (IH self1 (relayLoop ps t (relayWidth self) ∅ []).1) as [Hs' Hb'].
      split; [by rewrite Hs, Hs'|]. intros q.
      rewrite Hb, Hb', !relayLoop_batch, lookup_empty. simpl.
      by rewrite <- !app_assoc.
Qed.

(** X11.  A [Send] of [txs1 ++ txs2] leaves the relay in the state that a
    [Send] of [txs1] followed by a [Send] of [txs2] leaves it in, and the batch
    it queues for a peer is the batch of the first followed by the batch of
    the second (the peer set being the same throughout). *)
Theorem Send_app ps self txs1 txs2 :
  (Send ps self (txs1 ++ txs2)).1 = (Send ps (Send ps self txs1).1 txs2).1 ∧
  ∀ p, batchFor p (Send ps self (txs1 ++ txs2)).2 =
       batchFor p (Send ps self txs1).2 ++
       batchFor p (Send ps (Send ps self txs1).1 txs2).2.
Proof.
  unfold Send. rewrite !send_state, !send_requests. unfold fanOut.
  rewrite foldl_app.
  destruct (foldl (sendTx ps) (self, ∅) txs1) as [self1 sendTo1] eqn:E1.
  destruct (foldl_sendTx_from ps txs2 self1 sendTo1) as [Hs Hb].
  split; [exact Hs|]. intros p. cbn [fst snd].
  by rewrite !batchFor_requests, Hb.
Qed.

(** ** [Discard] on a list of hashes *)

Lemma LesTxRelay_eq (s1 s2 : LesTxRelay) :
  txSent s1 = txSent s2 → txPending s1 = txPending s2 → peerList s1 = peerList s2 →
  s1 = s2.
Proof. destruct s1, s2. simpl. by intros -> -> ->. Qed.

(** X12.  [Discard] removes the listed hashes and nothing else: a listed hash
    has no record and is not pending afterwards, whether it was tracked or
    not; every other hash keeps its record and its membership in the pending
    set; the cached peer list is not touched. *)
Theorem Discard_effect self hashes hash :
  txSent (Discard self hashes) !! hash =
    (if decide (hash ∈ hashes) then None else txSent self !! hash) ∧
  (hash ∈ txPending (Discard self hashes) ↔
   hash ∈ txPending self ∧ hash ∉ hashes) ∧
  peerList (Discard self hashes) = peerList self.
Proof.
  split; [apply Discard_txSent|]. split; [apply Discard_txPending|].
  apply Discard_peerList.
Qed.

(** X13.  [Discard] depends on the set of the listed hashes only: two lists
    with the same members, in whatever order and however often repeated, give
    the same relay. *)
Theorem Discard_by_set self hashes hashes' :
  (∀ hash, hash ∈ hashes ↔ hash ∈ hashes') →
  Discard self hashes = Discard self hashes'.
Proof.
  intros Hsame. apply LesTxRelay_eq.
  - apply map_eq. intros hash. rewrite !Discard_txSent.
    destruct (decide (hash ∈ hashes)) as [H|H];
      destruct (decide (hash ∈ hashes')) as [H'|H']; try done.
    + by apply Hsame in H.
    + by apply Hsame in H'.
  - apply set_eq. intros hash. rewrite !Discard_txPending, Hsame. done.
  - by rewrite !Discard_peerList.
Qed.

Lemma Discard_by_set_witness :
  Discard sent2 [hash7; hash8] = Discard sent2 [hash8; hash7; hash7].
Proof.
  apply Discard_by_set. intros hash.
  rewrite !elem_of_cons, !elem_of_nil. tauto.
Defined.

(** X14.  [Discard] is idempotent, and discarding in two calls is discarding
    the concatenation in one. *)
Theorem Discard_twice self hashes hashes' :
  Discard (Discard self hashes) hashes = Discard self hashes ∧
  Discard (Discard self hashes) hashes' = Discard self (hashes ++ hashes').
Proof.
  split.
  - apply LesTxRelay_eq.
    + apply map_eq. intros hash. rewrite !Discard_txSent. by case_decide.
    + apply set_eq. intros hash. rewrite !Discard_txPending. tauto.
    + by rewrite !Discard_peerList.
  - unfold Discard. by rewrite foldl_app.
Qed.

(** ** [NewHead] in the reachable states *)

(** X15.  In every reachable state [NewHead] changes the pending set and
    nothing else: the relay table and the cached peer list are as before, no
    request is queued, and a hash is pending afterwards exactly when it is in
    [rollback], or was pending and is not in [mined].  The order in which the
    pending set is ranged over has no effect. *)
Theorem NewHead_reachable_effect ps self head mined rollback order :
  reachable self →
  txSent (NewHead ps self head mined rollback order).1 = txSent self ∧
  peerList (NewHead ps self head mined rollback order).1 = peerList self ∧
  (NewHead ps self head mined rollback order).2 = [] ∧
  ∀ hash, hash ∈ txPending (NewHead ps self head mined rollback order).1 ↔
          hash ∈ rollback ∨ (hash ∈ txPending self ∧ hash ∉ mined).
Proof.
  intros Hreach. rewrite NewHead_keyed by (by apply reachable_keyed).
  cbn [fst snd headUpdated txSent txPending peerList].
  repeat split; try done; by apply updatePending_spec.
Qed.

Lemma NewHead_reachable_effect_witness :
  txSent (NewHead ps1 sent2 0%Z [hash7] [hash8] [hash8]).1 = txSent sent2 ∧
  (NewHead ps1 sent2 0%Z [hash7] [hash8] [hash8]).2 = [].
Proof.
  destruct (NewHead_reachable_effect ps1 sent2 0%Z [hash7] [hash8] [hash8]
              reachable_sent2) as (H1 & _ & H3 & _).
  split; [exact H1|exact H3].
Defined.

(** X16.  A rolled back hash that the relay has no record of becomes pending
    without a record: in a reachable state [NewHead] never creates a record,
    so the pending set may hold hashes that the relay table does not. *)
Theorem NewHead_pending_without_record ps self head mined rollback order hash :
  reachable self → hash ∈ rollback → txSent self !! hash = None →
  hash ∈ txPending (NewHead ps self head mined rollback order).1 ∧
  txSent (NewHead ps self head mined rollback order).1 !! hash = None.
Proof.
  intros Hreach Hin Hnone. rewrite NewHead_keyed by (by apply reachable_keyed).
  cbn [fst headUpdated txSent txPending]. split; [|done].
  apply updatePending_spec. by left.
Qed.

Lemma NewHead_pending_without_record_witness :
  hash8 ∈ [hash8] ∧ txSent sent2 !! hash8 = None ∧
  hash8 ∈ txPending (NewHead ps2 sent2 0%Z [] [hash8] [hash7; hash8]).1 ∧
  txSent (NewHead ps2 sent2 0%Z [] [hash8] [hash7; hash8]).1 !! hash8 = None.
Proof.
  assert (Hin : hash8 ∈ [hash8]) by left.
  assert (Hnone : txSent sent2 !! hash8 = None) by (vm_compute; reflexivity).
  split; [exact Hin|]. split; [exact Hnone|].
  exact (NewHead_pending_without_record ps2 sent2 0%Z [] [hash8] [hash7; hash8] hash8
           reachable_sent2 Hin Hnone).
Defined.
